(** * Overflow-safe 8-bit addition: [integer_overflow_good.c]

    A shallow embedding of
    [Secure_C_Programming_Guide/IntegerOverflow/integer_overflow_good.c]
    and the properties its specification states about it.

    The C program declares two [uint8_t] operands, tests
    [UINT8_MAX - a < b] before adding them, prints one line and returns 0.
    Integers are modelled as [Z] with the conversions and the range checks
    of C written out; undefined behaviour (signed overflow of an [int]
    operation, a malformed [printf] call) is the [None] of an error monad;
    the process state (arguments, environment, standard input, standard
    output) is threaded explicitly. *)

From Stdlib Require Import ZArith NArith List Bool Lia.
From Stdlib Require Import Strings.Ascii Strings.String.
From Stdlib Require Import Numbers.DecimalString Numbers.DecimalN Numbers.DecimalFacts.
Import ListNotations.

Local Open Scope string_scope.
Local Open Scope Z_scope.

(* ================================================================= *)
(** ** C integer types *)

Module CInt.

(** [<stdint.h>]: the largest [uint8_t]; an [int] constant. *)
Definition UINT8_MAX : Z := 255.

(** [<limits.h>] for a 32-bit [int] and [unsigned int]. *)
Definition INT_MIN : Z := - 2 ^ 31.
Definition INT_MAX : Z := 2 ^ 31 - 1.
Definition UINT_MAX : Z := 2 ^ 32 - 1.

(** Range of a [uint8_t] object. *)
Definition is_uint8 (x : Z) : Prop := 0 <= x <= UINT8_MAX.

Definition in_int (x : Z) : bool := (INT_MIN <=? x) && (x <=? INT_MAX).

(** Conversion to [uint8_t]: reduction modulo 2^8 (C11 6.3.1.3). *)
Definition to_uint8 (x : Z) : Z := x mod 2 ^ 8.

(** Conversion to [unsigned int]: reduction modulo 2^32. *)
Definition to_uint (x : Z) : Z := x mod 2 ^ 32.

(** Arithmetic on [int]: the operands of [-] and [+] have been promoted to
    [int]; a result outside the range of [int] is undefined behaviour. *)
Definition int_sub (x y : Z) : option Z :=
  let r := x - y in if in_int r then Some r else None.

Definition int_add (x y : Z) : option Z :=
  let r := x + y in if in_int r then Some r else None.

(** [x < y] on [int] operands. *)
Definition int_lt (x y : Z) : bool := x <? y.

End CInt.
Import CInt.

(* ================================================================= *)
(** ** The process and its effects *)

(** What a process can observe and change.  [stdout] holds the bytes written
    so far. *)
Record World : Type := mkWorld {
  argv : list string;
  environ : list string;
  stdin : string;
  stdout : string
}.

(** A computation either has undefined behaviour ([None]) or returns a value
    and the new state of the process. *)
Definition M (A : Type) : Type := World -> option (A * World).

Definition ret {A : Type} (x : A) : M A := fun w => Some (x, w).

Definition bind {A B : Type} (m : M A) (k : A -> M B) : M B :=
  fun w => match m w with
           | Some (x, w') => k x w'
           | None => None
           end.

(** Lifting of an expression whose evaluation may be undefined. *)
Definition eval {A : Type} (e : option A) : M A :=
  fun w => match e with
           | Some x => Some (x, w)
           | None => None
           end.

Declare Scope cmd_scope.
Delimit Scope cmd_scope with cmd.
Notation "x <- m ;; k" := (bind m (fun x => k))
  (at level 61, m at next level, right associativity) : cmd_scope.
Notation "m ;; k" := (bind m (fun _ => k))
  (at level 61, right associativity) : cmd_scope.

(** The process after [s] has been written to standard output. *)
Definition put (w : World) (s : string) : World :=
  mkWorld (argv w) (environ w) (stdin w) (stdout w ++ s).

Definition write_stdout (s : string) : M unit :=
  fun w => Some (tt, put w s).

(* ================================================================= *)
(** ** [printf] *)

Module Printf.

(** The line feed, written [\n] in C. *)
Definition LF : ascii := ascii_of_nat 10.
Definition nl : string := String LF EmptyString.

(** The conversion [%u]: the argument, read as an [unsigned int], in
    decimal with as few digits as possible. *)
Definition fmt_u (v : Z) : string :=
  NilZero.string_of_uint (N.to_uint (Z.to_N (to_uint v))).

(** Expansion of a format string.  Only [%u] and [%%] are supported; any
    other directive, or a missing argument, is undefined. *)
Fixpoint format (fmt : string) (args : list Z) : option string :=
  match fmt with
  | EmptyString => Some EmptyString
  | String c rest =>
      if Ascii.eqb c "%" then
        match rest with
        | String d rest' =>
            if Ascii.eqb d "u" then
              match args with
              | v :: args' =>
                  option_map (append (fmt_u v)) (format rest' args')
              | [] => None
              end
            else if Ascii.eqb d "%" then
              option_map (String "%") (format rest' args)
            else None
        | EmptyString => None
        end
      else option_map (String c) (format rest args)
  end.

(** [printf(fmt, args...)]; the number of bytes written is returned. *)
Definition printf (fmt : string) (args : list Z) : M Z :=
  (out <- eval (format fmt args) ;;
   write_stdout out ;;
   ret (Z.of_nat (String.length out)))%cmd.

End Printf.
Import Printf.

(* ================================================================= *)
(** ** The program *)

(** Line 7, the guard [UINT8_MAX - a < b].  [a] and [b] are promoted to
    [int], which keeps their values; the subtraction and the comparison are
    done on [int]. *)
Definition overflow_check (a b : Z) : option bool :=
  match int_sub UINT8_MAX a with
  | Some d => Some (int_lt d b)
  | None => None
  end.

Section Program.

(** The addition of line 10 is a parameter, so that a statement can say
    that a run does not depend on it.  The program itself uses
    [int_add]. *)
Variable add : Z -> Z -> option Z.

(** Line 10, [uint8_t total = a + b]: the sum is computed on [int] and
    converted to [uint8_t]. *)
Definition total_with (a b : Z) : option Z :=
  option_map to_uint8 (add a b).

(** Lines 7 to 12, the [if] statement, for operands [a] and [b] of type
    [uint8_t].  [total] is passed to [printf] promoted to [int]. *)
Definition if_stmt_with (a b : Z) : M Z :=
  (overflow <- eval (overflow_check a b) ;;
   if overflow : bool then
     printf ("Overflow detected!" ++ nl) []
   else
     total <- eval (total_with a b) ;;
     printf ("Sum: %u" ++ nl) [total])%cmd.

(** Lines 7 to 13: the [if] statement, then [return 0]. *)
Definition main_body_with (a b : Z) : M Z :=
  (if_stmt_with a b ;; ret 0)%cmd.

End Program.

Definition total_of : Z -> Z -> option Z := total_with int_add.

Definition main_body : Z -> Z -> M Z := main_body_with int_add.

(** [int main()]: [uint8_t a = 200, b = 100;] and the body. *)
Definition main : M Z :=
  let a := to_uint8 200 in
  let b := to_uint8 100 in
  main_body a b.

(** A whole run: the process starts with the given arguments, environment and
    standard input and nothing written; what is observed of it is the exit
    status and the bytes on standard output. *)
Definition initial_world (args env : list string) (input : string) : World :=
  mkWorld args env input "".

Definition observe (r : option (Z * World)) : option (Z * string) :=
  option_map (fun p => (fst p, stdout (snd p))) r.

Definition run_process (args env : list string) (input : string)
  : option (Z * string) :=
  observe (main (initial_world args env input)).

(* ================================================================= *)
(** ** Reading text *)

(** Value of a decimal digit. *)
Definition digit_of_ascii (c : ascii) : option Z :=
  let n := Z.of_N (N_of_ascii c) in
  if (48 <=? n) && (n <=? 57) then Some (n - 48) else None.

Fixpoint decimal_acc (s : string) (acc : Z) : option Z :=
  match s with
  | EmptyString => Some acc
  | String c s' =>
      match digit_of_ascii c with
      | Some d => decimal_acc s' (10 * acc + d)
      | None => None
      end
  end.

(** The number a non-empty string of decimal digits denotes. *)
Definition decimal_value (s : string) : option Z :=
  match s with
  | EmptyString => None
  | _ => decimal_acc s 0
  end.

(** Number of occurrences of a character. *)
Fixpoint count_char (c : ascii) (s : string) : nat :=
  match s with
  | EmptyString => O
  | String x s' => (if Ascii.eqb x c then 1 else 0) + count_char c s'
  end.

(** [has_prefix p s]: [s] starts with [p]. *)
Definition has_prefix (p s : string) : bool := String.prefix p s.

(** [contains p s]: [p] occurs somewhere in [s]. *)
Fixpoint contains (p s : string) : bool :=
  has_prefix p s ||
  match s with
  | EmptyString => false
  | String _ s' => contains p s'
  end.

(** A single line: some characters other than line feed, then one line
    feed. *)
Definition is_one_line (s : string) : Prop :=
  exists body, s = body ++ nl /\ count_char LF body = O.

(** The two forms of output. *)
Definition overflow_line : string := "Overflow detected!" ++ nl.

Definition is_sum_line (v : Z) (s : string) : Prop :=
  exists digits,
    s = "Sum: " ++ digits ++ nl /\ decimal_value digits = Some v.

Example main_runs :
  run_process [] [] "" = Some (0, "Overflow detected!" ++ nl).
Proof. reflexivity. Qed.

Example body_100_50 :
  observe (main_body 100 50 (initial_world [] [] "")) = Some (0, "Sum: 150" ++ nl).
Proof. reflexivity. Qed.

Example body_1_255 :
  observe (main_body 1 255 (initial_world [] [] "")) = Some (0, "Overflow detected!" ++ nl).
Proof. reflexivity. Qed.

(* ================================================================= *)
(** ** Decimal text *)

Section DecimalText.

Local Ltac digit_step IH :=
  cbn [NilEmpty.string_of_uint decimal_acc];
  match goal with
  | |- context [digit_of_ascii ?c] =>
      let v := eval vm_compute in (digit_of_ascii c) in
      change (digit_of_ascii c) with v
  end;
  cbv beta iota;
  match goal with
  | |- decimal_acc _ ?x = Some (Z.pos (Pos.of_uint_acc _ ?q)) =>
      replace x with (Z.pos q) by lia
  end;
  apply IH.

(** Reading the digits of [d] after a positive prefix [p] is the
    library's Horner scheme. *)
Lemma decimal_acc_pos (d : Decimal.uint) :
  forall p : positive,
    decimal_acc (NilEmpty.string_of_uint d) (Z.pos p)
    = Some (Z.pos (Pos.of_uint_acc d p)).
Proof.
  induction d as [|d IH|d IH|d IH|d IH|d IH|d IH|d IH|d IH|d IH|d IH];
    intro p; cbn [Pos.of_uint_acc];
    [reflexivity | digit_step IH ..].
Qed.

Lemma decimal_acc_zero (d : Decimal.uint) :
  decimal_acc (NilEmpty.string_of_uint d) 0 = Some (Z.of_N (N.of_uint d)).
Proof.
  unfold N.of_uint.
  induction d as [|d IH|d IH|d IH|d IH|d IH|d IH|d IH|d IH|d IH|d IH];
    cbn [Pos.of_uint NilEmpty.string_of_uint decimal_acc];
    [reflexivity | exact IH | exact (decimal_acc_pos d _) ..].
Qed.

Lemma decimal_value_string_of_uint (d : Decimal.uint) :
  decimal_value (NilZero.string_of_uint d) = Some (Z.of_N (N.of_uint d)).
Proof.
  destruct d; try reflexivity;
    exact (decimal_acc_zero _).
Qed.

(** What [%u] prints reads back as the number printed. *)
Lemma decimal_value_fmt_u (v : Z) :
  0 <= v <= UINT_MAX -> decimal_value (fmt_u v) = Some v.
Proof.
  intros Hv. unfold fmt_u.
  rewrite decimal_value_string_of_uint, Unsigned.of_to.
  unfold to_uint. rewrite Z.mod_small by (unfold UINT_MAX in Hv; lia).
  rewrite Z2N.id by lia. reflexivity.
Qed.

Lemma count_LF_string_of_uint (d : Decimal.uint) :
  count_char LF (NilEmpty.string_of_uint d) = O.
Proof.
  induction d; cbn [NilEmpty.string_of_uint count_char]; auto.
Qed.

(** [%u] prints no line feed. *)
Lemma count_LF_fmt_u (v : Z) : count_char LF (fmt_u v) = O.
Proof.
  unfold fmt_u. destruct (N.to_uint (Z.to_N (to_uint v))) eqn:E;
    try reflexivity; apply count_LF_string_of_uint.
Qed.

Lemma count_char_app (c : ascii) (s t : string) :
  count_char c (s ++ t) = (count_char c s + count_char c t)%nat.
Proof.
  induction s as [|x s IH]; cbn [append count_char]; [reflexivity|].
  rewrite IH. lia.
Qed.

End DecimalText.

(* ================================================================= *)
(** ** The guard and the sum *)

Lemma int_sub_UINT8_MAX (a : Z) :
  is_uint8 a -> int_sub UINT8_MAX a = Some (UINT8_MAX - a).
Proof.
  unfold is_uint8, int_sub, in_int, INT_MIN, INT_MAX, UINT8_MAX. intros Ha.
  cbv zeta.
  replace ((- 2 ^ 31 <=? 255 - a) && (255 - a <=? 2 ^ 31 - 1)) with true;
    [reflexivity|].
  symmetry. apply andb_true_intro. split; apply Z.leb_le; lia.
Qed.

Lemma overflow_check_uint8 (a b : Z) :
  is_uint8 a -> overflow_check a b = Some (UINT8_MAX - a <? b).
Proof.
  intros Ha. unfold overflow_check. rewrite (int_sub_UINT8_MAX a Ha).
  reflexivity.
Qed.

Lemma int_add_uint8 (a b : Z) :
  is_uint8 a -> is_uint8 b -> int_add a b = Some (a + b).
Proof.
  unfold is_uint8, int_add, in_int, INT_MIN, INT_MAX, UINT8_MAX.
  intros Ha Hb. cbv zeta.
  replace ((- 2 ^ 31 <=? a + b) && (a + b <=? 2 ^ 31 - 1)) with true;
    [reflexivity|].
  symmetry. apply andb_true_intro. split; apply Z.leb_le; lia.
Qed.

Lemma total_of_no_overflow (a b : Z) :
  is_uint8 a -> is_uint8 b -> UINT8_MAX - a >= b ->
  total_of a b = Some (a + b).
Proof.
  intros Ha Hb Hge. unfold total_of, total_with.
  rewrite (int_add_uint8 a b Ha Hb). cbn [option_map]. f_equal.
  unfold to_uint8. apply Z.mod_small.
  unfold is_uint8, UINT8_MAX in *. lia.
Qed.

(* ================================================================= *)
(** ** The two branches of the program *)

Lemma format_sum (v : Z) :
  format ("Sum: %u" ++ nl) [v] = Some ("Sum: " ++ fmt_u v ++ nl).
Proof. reflexivity. Qed.

(** The overflow branch, whatever line 10 would compute. *)
Lemma main_body_overflow (add : Z -> Z -> option Z) (a b : Z) (w : World) :
  is_uint8 a -> UINT8_MAX - a < b ->
  main_body_with add a b w = Some (0, put w overflow_line).
Proof.
  intros Ha Hlt. unfold main_body_with, if_stmt_with, bind at 1 2.
  rewrite (overflow_check_uint8 a b Ha).
  apply Z.ltb_lt in Hlt. rewrite Hlt. reflexivity.
Qed.

(** The other branch. *)
Lemma main_body_sum (a b : Z) (w : World) :
  is_uint8 a -> is_uint8 b -> UINT8_MAX - a >= b ->
  main_body a b w = Some (0, put w ("Sum: " ++ fmt_u (a + b) ++ nl)).
Proof.
  intros Ha Hb Hge.
  unfold main_body, main_body_with, if_stmt_with, bind at 1 2.
  rewrite (overflow_check_uint8 a b Ha).
  assert (Hf : (UINT8_MAX - a <? b) = false) by (apply Z.ltb_ge; lia).
  rewrite Hf. cbn [eval]. unfold bind at 1.
  fold total_of. rewrite (total_of_no_overflow a b Ha Hb Hge).
  cbn [eval]. unfold printf, bind. rewrite format_sum. reflexivity.
Qed.

Lemma main_is_body : main = main_body 200 100.
Proof. reflexivity. Qed.

Lemma overflow_line_one_line : is_one_line overflow_line.
Proof. exists "Overflow detected!". split; reflexivity. Qed.

Lemma sum_line_one_line (v : Z) : is_one_line ("Sum: " ++ fmt_u v ++ nl).
Proof.
  exists ("Sum: " ++ fmt_u v). split.
  - reflexivity.
  - rewrite count_char_app, count_LF_fmt_u. reflexivity.
Qed.

Lemma overflow_line_not_sum (v : Z) : ~ is_sum_line v overflow_line.
Proof. intros [digits [E _]]. discriminate E. Qed.

Lemma sum_line_not_overflow (v : Z) :
  "Sum: " ++ fmt_u v ++ nl <> overflow_line.
Proof. intros E. discriminate E. Qed.

(** [return 0] is the only way out of the body. *)
Lemma main_body_with_returns_0
    (add : Z -> Z -> option Z) (a b : Z) (w w' : World) (rc : Z) :
  main_body_with add a b w = Some (rc, w') -> rc = 0.
Proof.
  unfold main_body_with, bind.
  destruct (if_stmt_with add a b w) as [[n w1]|]; [|discriminate].
  unfold ret. intros E. inversion E. reflexivity.
Qed.

Local Ltac uint8_range := unfold is_uint8, UINT8_MAX; lia.

(* ================================================================= *)
(** ** The properties of the specification *)

(** C1.  The program as written, with operands 200 and 100, writes exactly
    the line [Overflow detected!] to standard output: the guard computes
    255 - 200 = 55, and 55 < 100 selects the overflow branch. *)
Theorem main_prints_overflow_detected :
  int_sub UINT8_MAX (to_uint8 200) = Some 55 /\
  overflow_check (to_uint8 200) (to_uint8 100) = Some true /\
  (forall w : World, main w = Some (0, put w ("Overflow detected!" ++ nl))) /\
  (forall args env input,
      run_process args env input = Some (0, "Overflow detected!" ++ nl)).
Proof.
  repeat split; intros; reflexivity.
Qed.

(** C2.  For all 8-bit operands [a], [b] with 255 - a < b the program
    prints [Overflow detected!] and no sum; the run does not depend on the
    addition of line 10, which may be any operation, even one that is
    undefined everywhere. *)
Theorem overflow_branch_prints_no_sum
    (add : Z -> Z -> option Z) (a b : Z) (w : World) :
  is_uint8 a -> is_uint8 b -> UINT8_MAX - a < b ->
  exists out : string,
    main_body_with add a b w = Some (0, put w out) /\
    out = "Overflow detected!" ++ nl /\
    contains "Sum: " out = false /\
    (forall v : Z, ~ is_sum_line v out).
Proof.
  intros Ha _ Hlt. exists overflow_line. split; [|split; [|split]].
  - exact (main_body_overflow add a b w Ha Hlt).
  - reflexivity.
  - reflexivity.
  - exact overflow_line_not_sum.
Qed.

Lemma overflow_branch_prints_no_sum_witness :
  is_uint8 200 /\ is_uint8 100 /\ UINT8_MAX - 200 < 100 /\
  exists out : string,
    main_body_with (fun _ _ => None) 200 100 (initial_world [] [] "")
    = Some (0, put (initial_world [] [] "") out) /\
    out = "Overflow detected!" ++ nl /\
    contains "Sum: " out = false /\
    (forall v : Z, ~ is_sum_line v out).
Proof.
  assert (Ha : is_uint8 200) by uint8_range.
  assert (Hb : is_uint8 100) by uint8_range.
  assert (Hlt : UINT8_MAX - 200 < 100) by (unfold UINT8_MAX; lia).
  split; [exact Ha | split; [exact Hb | split; [exact Hlt |]]].
  exact (overflow_branch_prints_no_sum
           (fun _ _ => None) 200 100 (initial_world [] [] "") Ha Hb Hlt).
Defined.

(** C3.  For all 8-bit operands [a], [b] with 255 - a >= b the program
    prints [Sum: ] followed by the decimal digits of the mathematical sum
    a + b, in the shortest form, and a line feed. *)
Theorem sum_branch_prints_exact_sum (a b : Z) (w : World) :
  is_uint8 a -> is_uint8 b -> UINT8_MAX - a >= b ->
  exists digits : string,
    main_body a b w = Some (0, put w ("Sum: " ++ digits ++ nl)) /\
    decimal_value digits = Some (a + b) /\
    digits = fmt_u (a + b).
Proof.
  intros Ha Hb Hge. exists (fmt_u (a + b)). split; [|split].
  - exact (main_body_sum a b w Ha Hb Hge).
  - apply decimal_value_fmt_u.
    unfold is_uint8, UINT8_MAX in Ha, Hb. unfold UINT_MAX. lia.
  - reflexivity.
Qed.

Lemma sum_branch_prints_exact_sum_witness :
  is_uint8 100 /\ is_uint8 50 /\ UINT8_MAX - 100 >= 50 /\
  exists digits : string,
    main_body 100 50 (initial_world [] [] "")
    = Some (0, put (initial_world [] [] "") ("Sum: " ++ digits ++ nl)) /\
    decimal_value digits = Some (100 + 50) /\
    digits = fmt_u (100 + 50).
Proof.
  assert (Ha : is_uint8 100) by uint8_range.
  assert (Hb : is_uint8 50) by uint8_range.
  assert (Hge : UINT8_MAX - 100 >= 50) by (unfold UINT8_MAX; lia).
  split; [exact Ha | split; [exact Hb | split; [exact Hge |]]].
  exact (sum_branch_prints_exact_sum 100 50 (initial_world [] [] "") Ha Hb Hge).
Defined.

(** C4.  On the branch without overflow the 8-bit addition cannot wrap: for
    all 8-bit [a], [b], 255 - a >= b gives a + b <= 255, and the value stored
    in [total] is the mathematical sum. *)
Theorem no_wrap_on_sum_branch (a b : Z) :
  is_uint8 a -> is_uint8 b -> UINT8_MAX - a >= b ->
  a + b <= UINT8_MAX /\
  to_uint8 (a + b) = a + b /\
  total_of a b = Some (a + b).
Proof.
  intros Ha Hb Hge.
  assert (Hle : a + b <= UINT8_MAX) by lia.
  split; [exact Hle | split].
  - unfold to_uint8. apply Z.mod_small.
    unfold is_uint8, UINT8_MAX in *. lia.
  - exact (total_of_no_overflow a b Ha Hb Hge).
Qed.

Lemma no_wrap_on_sum_branch_witness :
  is_uint8 0 /\ is_uint8 255 /\ UINT8_MAX - 0 >= 255 /\
  0 + 255 <= UINT8_MAX /\
  to_uint8 (0 + 255) = 0 + 255 /\
  total_of 0 255 = Some (0 + 255).
Proof.
  assert (Ha : is_uint8 0) by uint8_range.
  assert (Hb : is_uint8 255) by uint8_range.
  assert (Hge : UINT8_MAX - 0 >= 255) by (unfold UINT8_MAX; lia).
  split; [exact Ha | split; [exact Hb | split; [exact Hge |]]].
  exact (no_wrap_on_sum_branch 0 255 Ha Hb Hge).
Defined.

(** C5.  The guard decides overflow as the glossary defines it: for all
    8-bit [a], [b], the test 255 - a < b of line 7 is true exactly when the
    mathematical sum a + b exceeds 255. *)
Theorem overflow_check_iff_sum_exceeds_max (a b : Z) :
  is_uint8 a -> is_uint8 b ->
  overflow_check a b = Some (UINT8_MAX - a <? b) /\
  (overflow_check a b = Some true <-> UINT8_MAX < a + b).
Proof.
  intros Ha _. rewrite (overflow_check_uint8 a b Ha).
  split; [reflexivity|]. split.
  - intros E.
    assert (E' : (UINT8_MAX - a <? b) = true) by congruence.
    apply Z.ltb_lt in E'. lia.
  - intros Hgt. f_equal. apply Z.ltb_lt. lia.
Qed.

Lemma overflow_check_iff_sum_exceeds_max_witness :
  is_uint8 1 /\ is_uint8 255 /\
  overflow_check 1 255 = Some (UINT8_MAX - 1 <? 255) /\
  (overflow_check 1 255 = Some true <-> UINT8_MAX < 1 + 255).
Proof.
  assert (Ha : is_uint8 1) by uint8_range.
  assert (Hb : is_uint8 255) by uint8_range.
  split; [exact Ha | split; [exact Hb |]].
  exact (overflow_check_iff_sum_exceeds_max 1 255 Ha Hb).
Defined.

(** C6.  The exit code is 0 unconditionally: for all 8-bit operands the
    program terminates with code 0, and on either branch the only value the
    body can return is the 0 of the common [return 0]. *)
Theorem exit_code_is_zero (a b : Z) (w : World) :
  is_uint8 a -> is_uint8 b ->
  (exists w' : World, main_body a b w = Some (0, w')) /\
  (forall (add : Z -> Z -> option Z) (a0 b0 : Z) (w0 w1 : World) (rc : Z),
      main_body_with add a0 b0 w0 = Some (rc, w1) -> rc = 0) /\
  (exists w' : World, main w = Some (0, w')).
Proof.
  intros Ha Hb. split; [|split].
  - destruct (Z_lt_ge_dec (UINT8_MAX - a) b) as [Hlt|Hge].
    + eexists. exact (main_body_overflow int_add a b w Ha Hlt).
    + eexists. exact (main_body_sum a b w Ha Hb Hge).
  - exact main_body_with_returns_0.
  - eexists. reflexivity.
Qed.

Lemma exit_code_is_zero_witness :
  is_uint8 0 /\ is_uint8 255 /\
  (exists w' : World,
      main_body 0 255 (initial_world [] [] "") = Some (0, w')) /\
  (forall (add : Z -> Z -> option Z) (a0 b0 : Z) (w0 w1 : World) (rc : Z),
      main_body_with add a0 b0 w0 = Some (rc, w1) -> rc = 0) /\
  (exists w' : World, main (initial_world [] [] "") = Some (0, w')).
Proof.
  assert (Ha : is_uint8 0) by uint8_range.
  assert (Hb : is_uint8 255) by uint8_range.
  split; [exact Ha | split; [exact Hb |]].
  exact (exit_code_is_zero 0 255 (initial_world [] [] "") Ha Hb).
Defined.

(** C7.  Every run writes exactly one line to standard output.  The line is
    either [Overflow detected!] or [Sum: ] followed by the decimal rendering
    of the unsigned sum stored in [total], and never both. *)
Theorem output_is_exactly_one_line (a b : Z) (w : World) :
  is_uint8 a -> is_uint8 b ->
  exists out : string,
    main_body a b w = Some (0, put w out) /\
    is_one_line out /\
    ((out = "Overflow detected!" ++ nl /\
      forall v : Z, ~ is_sum_line v out)
     \/
     (exists total : Z,
         total_of a b = Some total /\
         out = "Sum: " ++ fmt_u total ++ nl /\
         is_sum_line total out /\
         out <> "Overflow detected!" ++ nl)).
Proof.
  intros Ha Hb.
  destruct (Z_lt_ge_dec (UINT8_MAX - a) b) as [Hlt|Hge].
  - exists overflow_line. split; [|split].
    + exact (main_body_overflow int_add a b w Ha Hlt).
    + exact overflow_line_one_line.
    + left. split; [reflexivity | exact overflow_line_not_sum].
  - exists ("Sum: " ++ fmt_u (a + b) ++ nl). split; [|split].
    + exact (main_body_sum a b w Ha Hb Hge).
    + apply sum_line_one_line.
    + right. exists (a + b). split; [|split; [|split]].
      * exact (total_of_no_overflow a b Ha Hb Hge).
      * reflexivity.
      * exists (fmt_u (a + b)). split; [reflexivity|].
        apply decimal_value_fmt_u.
        unfold is_uint8, UINT8_MAX in Ha, Hb. unfold UINT_MAX. lia.
      * apply sum_line_not_overflow.
Qed.

Lemma output_is_exactly_one_line_witness :
  is_uint8 200 /\ is_uint8 100 /\
  exists out : string,
    main_body 200 100 (initial_world [] [] "")
    = Some (0, put (initial_world [] [] "") out) /\
    is_one_line out /\
    ((out = "Overflow detected!" ++ nl /\
      forall v : Z, ~ is_sum_line v out)
     \/
     (exists total : Z,
         total_of 200 100 = Some total /\
         out = "Sum: " ++ fmt_u total ++ nl /\
         is_sum_line total out /\
         out <> "Overflow detected!" ++ nl)).
Proof.
  assert (Ha : is_uint8 200) by uint8_range.
  assert (Hb : is_uint8 100) by uint8_range.
  split; [exact Ha | split; [exact Hb |]].
  exact (output_is_exactly_one_line 200 100 (initial_world [] [] "") Ha Hb).
Defined.

(** C8.  Boundary case: with operands 0 and 255 the guard computes
    255 - 0 = 255, which is not less than 255, so the branch without
    overflow is taken and the output is [Sum: 255]. *)
Theorem boundary_0_255_prints_sum_255 :
  int_sub UINT8_MAX 0 = Some 255 /\
  overflow_check 0 255 = Some false /\
  total_of 0 255 = Some 255 /\
  (forall w : World, main_body 0 255 w = Some (0, put w ("Sum: 255" ++ nl))).
Proof.
  repeat split; intros; reflexivity.
Qed.

(** C9.  The program is deterministic and does not depend on its input:
    whatever the arguments, the environment and standard input, a run gives
    the same exit code and the same bytes on standard output, and leaves
    arguments, environment and standard input as they were. *)
Theorem main_is_input_independent :
  (forall (args1 env1 : list string) (input1 : string)
          (args2 env2 : list string) (input2 : string),
      run_process args1 env1 input1 = run_process args2 env2 input2) /\
  (exists (code : Z) (out : string),
      (forall args env input, run_process args env input = Some (code, out)) /\
      (forall w : World,
          exists w' : World,
            main w = Some (code, w') /\
            stdout w' = stdout w ++ out /\
            argv w' = argv w /\ environ w' = environ w /\ stdin w' = stdin w)).
Proof.
  split.
  - intros. reflexivity.
  - exists 0, ("Overflow detected!" ++ nl). split.
    + intros. reflexivity.
    + intros w. eexists. split; [reflexivity|]. repeat split.
Qed.

(** C10.  Evaluating the guard is free of overflow and underflow: for every
    8-bit [a] the [int] subtraction [UINT8_MAX - a] is defined and its value
    255 - a lies in [0,255], so the guard has a defined truth value for
    every [b]. *)
Theorem guard_subtraction_in_range (a b : Z) :
  is_uint8 a ->
  int_sub UINT8_MAX a = Some (UINT8_MAX - a) /\
  is_uint8 (UINT8_MAX - a) /\
  in_int (UINT8_MAX - a) = true /\
  exists r : bool, overflow_check a b = Some r.
Proof.
  intros Ha. split; [|split; [|split]].
  - exact (int_sub_UINT8_MAX a Ha).
  - unfold is_uint8 in *. lia.
  - unfold in_int, INT_MIN, INT_MAX. unfold is_uint8, UINT8_MAX in Ha.
    apply andb_true_intro. split; apply Z.leb_le; unfold UINT8_MAX; lia.
  - eexists. exact (overflow_check_uint8 a b Ha).
Qed.

Lemma guard_subtraction_in_range_witness :
  is_uint8 255 /\
  int_sub UINT8_MAX 255 = Some (UINT8_MAX - 255) /\
  is_uint8 (UINT8_MAX - 255) /\
  in_int (UINT8_MAX - 255) = true /\
  exists r : bool, overflow_check 255 1 = Some r.
Proof.
  assert (Ha : is_uint8 255) by uint8_range.
  split; [exact Ha |].
  exact (guard_subtraction_in_range 255 1 Ha).
Defined.


(* ================================================================= *)
(** ** Further properties of the guard and of line 10 *)

Lemma overflow_check_true_lt (a b : Z) :
  is_uint8 a -> overflow_check a b = Some true -> UINT8_MAX - a < b.
Proof.
  intros Ha E. rewrite (overflow_check_uint8 a b Ha) in E.
  assert (E' : (UINT8_MAX - a <? b) = true) by congruence.
  apply Z.ltb_lt. exact E'.
Qed.

Lemma overflow_check_false_ge (a b : Z) :
  is_uint8 a -> overflow_check a b = Some false -> UINT8_MAX - a >= b.
Proof.
  intros Ha E. rewrite (overflow_check_uint8 a b Ha) in E.
  assert (E' : (UINT8_MAX - a <? b) = false) by congruence.
  apply Z.ltb_ge in E'. lia.
Qed.

Lemma total_of_wraps (a b : Z) :
  is_uint8 a -> is_uint8 b -> UINT8_MAX - a < b ->
  total_of a b = Some (a + b - 256).
Proof.
  intros Ha Hb Hlt. unfold total_of, total_with.
  rewrite (int_add_uint8 a b Ha Hb). cbn [option_map]. f_equal.
  unfold to_uint8. change (2 ^ 8) with 256. symmetry.
  apply (Z.mod_unique (a + b) 256 1 (a + b - 256));
    unfold is_uint8, UINT8_MAX in *; lia.
Qed.

(** The program treats its two operands alike: the guard of line 7 gives
    the same answer for (a, b) and for (b, a), and so does the whole
    body. *)
Theorem main_body_operands_commute (a b : Z) (w : World) :
  is_uint8 a -> is_uint8 b ->
  overflow_check a b = overflow_check b a /\
  main_body a b w = main_body b a w.
Proof.
  intros Ha Hb.
  destruct (Z_lt_ge_dec (UINT8_MAX - a) b) as [Hlt|Hge].
  - assert (Hlt' : UINT8_MAX - b < a) by lia. split.
    + rewrite (overflow_check_uint8 a b Ha), (overflow_check_uint8 b a Hb).
      f_equal. apply Z.ltb_lt in Hlt, Hlt'. congruence.
    + unfold main_body.
      rewrite (main_body_overflow int_add a b w Ha Hlt).
      rewrite (main_body_overflow int_add b a w Hb Hlt'). reflexivity.
  - assert (Hge' : UINT8_MAX - b >= a) by lia. split.
    + rewrite (overflow_check_uint8 a b Ha), (overflow_check_uint8 b a Hb).
      f_equal.
      assert (E1 : (UINT8_MAX - a <? b) = false) by (apply Z.ltb_ge; lia).
      assert (E2 : (UINT8_MAX - b <? a) = false) by (apply Z.ltb_ge; lia).
      congruence.
    + rewrite (main_body_sum a b w Ha Hb Hge).
      rewrite (main_body_sum b a w Hb Ha Hge').
      rewrite (Z.add_comm b a). reflexivity.
Qed.

Lemma main_body_operands_commute_witness :
  is_uint8 100 /\ is_uint8 50 /\
  overflow_check 100 50 = overflow_check 50 100 /\
  main_body 100 50 (initial_world [] [] "")
  = main_body 50 100 (initial_world [] [] "").
Proof.
  assert (Ha : is_uint8 100) by uint8_range.
  assert (Hb : is_uint8 50) by uint8_range.
  split; [exact Ha | split; [exact Hb |]].
  exact (main_body_operands_commute 100 50 (initial_world [] [] "") Ha Hb).
Defined.

(** What the guard keeps away from line 10: for 8-bit operands that the
    guard rejects, [uint8_t total = a + b] would store a + b - 256, a value
    smaller than either operand and different from the sum. *)
Theorem rejected_addition_would_wrap (a b : Z) :
  is_uint8 a -> is_uint8 b -> overflow_check a b = Some true ->
  total_of a b = Some (a + b - 256) /\
  a + b - 256 < a /\ a + b - 256 < b /\
  total_of a b <> Some (a + b).
Proof.
  intros Ha Hb E.
  pose proof (overflow_check_true_lt a b Ha E) as Hlt.
  rewrite (total_of_wraps a b Ha Hb Hlt).
  unfold is_uint8, UINT8_MAX in *.
  repeat split; try lia.
  intros E'. assert (a + b - 256 = a + b) by congruence. lia.
Qed.

Lemma rejected_addition_would_wrap_witness :
  is_uint8 200 /\ is_uint8 100 /\ overflow_check 200 100 = Some true /\
  total_of 200 100 = Some (200 + 100 - 256) /\
  200 + 100 - 256 < 200 /\ 200 + 100 - 256 < 100 /\
  total_of 200 100 <> Some (200 + 100).
Proof.
  assert (Ha : is_uint8 200) by uint8_range.
  assert (Hb : is_uint8 100) by uint8_range.
  assert (E : overflow_check 200 100 = Some true) by reflexivity.
  split; [exact Ha | split; [exact Hb | split; [exact E |]]].
  exact (rejected_addition_would_wrap 200 100 Ha Hb E).
Defined.

(** Line 10 is defined for all 8-bit operands, with or without the guard:
    the addition is done on [int], where a sum of at most 510 cannot
    overflow, and the value stored in [total] is again 8-bit.  It is the
    mathematical sum exactly for the pairs the guard lets through. *)
Theorem total_of_defined_and_exact_iff_guard_passes (a b : Z) :
  is_uint8 a -> is_uint8 b ->
  int_add a b = Some (a + b) /\
  exists total : Z,
    total_of a b = Some total /\
    is_uint8 total /\
    (total = a + b <-> overflow_check a b = Some false).
Proof.
  intros Ha Hb. split; [exact (int_add_uint8 a b Ha Hb)|].
  rewrite (overflow_check_uint8 a b Ha).
  destruct (Z_lt_ge_dec (UINT8_MAX - a) b) as [Hlt|Hge].
  - exists (a + b - 256). split; [exact (total_of_wraps a b Ha Hb Hlt)|].
    split; [unfold is_uint8, UINT8_MAX in *; lia|].
    apply Z.ltb_lt in Hlt. rewrite Hlt. split; [lia | discriminate].
  - exists (a + b). split; [exact (total_of_no_overflow a b Ha Hb Hge)|].
    split; [unfold is_uint8, UINT8_MAX in *; lia|].
    assert (E : (UINT8_MAX - a <? b) = false) by (apply Z.ltb_ge; lia).
    rewrite E. split; reflexivity.
Qed.

Lemma total_of_defined_and_exact_iff_guard_passes_witness :
  is_uint8 255 /\ is_uint8 255 /\
  int_add 255 255 = Some (255 + 255) /\
  exists total : Z,
    total_of 255 255 = Some total /\
    is_uint8 total /\
    (total = 255 + 255 <-> overflow_check 255 255 = Some false).
Proof.
  assert (Ha : is_uint8 255) by uint8_range.
  split; [exact Ha | split; [exact Ha |]].
  exact (total_of_defined_and_exact_iff_guard_passes 255 255 Ha Ha).
Defined.

(* ================================================================= *)
(** ** Size and unambiguity of the output *)

Lemma length_append_string (s t : string) :
  String.length (s ++ t) = (String.length s + String.length t)%nat.
Proof.
  induction s as [|c s IH]; cbn [append String.length]; [reflexivity|].
  rewrite IH. reflexivity.
Qed.

(** An 8-bit value is printed by [%u] with one to three characters. *)
Lemma fmt_u_length_uint8 (v : Z) :
  is_uint8 v ->
  (1 <= String.length (fmt_u v) <= 3)%nat.
Proof.
  intros Hv. unfold is_uint8, UINT8_MAX in Hv.
  assert (All : forallb
                  (fun n => let l := String.length (fmt_u (Z.of_nat n)) in
                            Nat.leb 1 l && Nat.leb l 3)
                  (seq 0 256) = true) by (vm_compute; reflexivity).
  rewrite forallb_forall in All.
  specialize (All (Z.to_nat v)).
  rewrite Z2Nat.id in All by lia.
  assert (Hin : In (Z.to_nat v) (seq 0 256)) by (apply in_seq; lia).
  apply All in Hin. cbv zeta in Hin.
  apply andb_prop in Hin. destruct Hin as [H1 H3].
  apply Nat.leb_le in H1, H3. split; assumption.
Qed.

Lemma append_cancel_l (s t1 t2 : string) : s ++ t1 = s ++ t2 -> t1 = t2.
Proof.
  induction s as [|c s IH]; cbn [append]; intros E; [exact E|].
  injection E as E. exact (IH E).
Qed.

Lemma append_nl_cancel (s t : string) : s ++ nl = t ++ nl -> s = t.
Proof.
  revert t. induction s as [|c s IH]; intros [|d t] E; cbn [append] in E.
  - reflexivity.
  - unfold nl in E. injection E as _ E. destruct t; discriminate E.
  - unfold nl in E. injection E as _ E. destruct s; discriminate E.
  - injection E as Ec E. rewrite Ec, (IH t E). reflexivity.
Qed.

(** The size of the line written: 19 bytes when the guard reports an
    overflow, and between 7 and 9 bytes when a sum is printed, since an
    8-bit sum has at most three digits. *)
Theorem output_size_bounds (a b : Z) (w : World) :
  is_uint8 a -> is_uint8 b ->
  exists out : string,
    main_body a b w = Some (0, put w out) /\
    ((overflow_check a b = Some true /\ String.length out = 19%nat)
     \/
     (overflow_check a b = Some false /\
      (7 <= String.length out <= 9)%nat)).
Proof.
  intros Ha Hb. rewrite (overflow_check_uint8 a b Ha).
  destruct (Z_lt_ge_dec (UINT8_MAX - a) b) as [Hlt|Hge].
  - exists overflow_line.
    split; [exact (main_body_overflow int_add a b w Ha Hlt)|].
    left. apply Z.ltb_lt in Hlt. rewrite Hlt. split; reflexivity.
  - exists ("Sum: " ++ fmt_u (a + b) ++ nl).
    split; [exact (main_body_sum a b w Ha Hb Hge)|].
    right.
    assert (E : (UINT8_MAX - a <? b) = false) by (apply Z.ltb_ge; lia).
    rewrite E. split; [reflexivity|].
    assert (Hs : is_uint8 (a + b))
      by (unfold is_uint8, UINT8_MAX in *; lia).
    pose proof (fmt_u_length_uint8 (a + b) Hs) as Hl.
    rewrite !length_append_string.
    change (String.length "Sum: ") with 5%nat.
    change (String.length nl) with 1%nat. lia.
Qed.

Lemma output_size_bounds_witness :
  is_uint8 0 /\ is_uint8 255 /\
  exists out : string,
    main_body 0 255 (initial_world [] [] "")
    = Some (0, put (initial_world [] [] "") out) /\
    ((overflow_check 0 255 = Some true /\ String.length out = 19%nat)
     \/
     (overflow_check 0 255 = Some false /\
      (7 <= String.length out <= 9)%nat)).
Proof.
  assert (Ha : is_uint8 0) by uint8_range.
  assert (Hb : is_uint8 255) by uint8_range.
  split; [exact Ha | split; [exact Hb |]].
  exact (output_size_bounds 0 255 (initial_world [] [] "") Ha Hb).
Defined.

(** The sum line determines the sum: two pairs of 8-bit operands that both
    pass the guard produce the same run exactly when their sums are
    equal. *)
Theorem sum_output_determines_sum (a b a' b' : Z) (w : World) :
  is_uint8 a -> is_uint8 b -> is_uint8 a' -> is_uint8 b' ->
  overflow_check a b = Some false ->
  overflow_check a' b' = Some false ->
  (main_body a b w = main_body a' b' w <-> a + b = a' + b').
Proof.
  intros Ha Hb Ha' Hb' E E'.
  pose proof (overflow_check_false_ge a b Ha E) as Hge.
  pose proof (overflow_check_false_ge a' b' Ha' E') as Hge'.
  rewrite (main_body_sum a b w Ha Hb Hge).
  rewrite (main_body_sum a' b' w Ha' Hb' Hge').
  split.
  - intros Eq.
    assert (Eout : stdout (put w ("Sum: " ++ fmt_u (a + b) ++ nl))
                   = stdout (put w ("Sum: " ++ fmt_u (a' + b') ++ nl)))
      by congruence.
    cbn [stdout put] in Eout.
    apply append_cancel_l in Eout.
    apply (append_cancel_l "Sum: ") in Eout.
    apply append_nl_cancel in Eout.
    assert (Ev : decimal_value (fmt_u (a + b))
                 = decimal_value (fmt_u (a' + b'))) by congruence.
    rewrite !decimal_value_fmt_u in Ev
      by (unfold is_uint8, UINT8_MAX, UINT_MAX in *; lia).
    congruence.
  - intros Eq. rewrite Eq. reflexivity.
Qed.

Lemma sum_output_determines_sum_witness :
  is_uint8 100 /\ is_uint8 50 /\ is_uint8 0 /\ is_uint8 150 /\
  overflow_check 100 50 = Some false /\
  overflow_check 0 150 = Some false /\
  (main_body 100 50 (initial_world [] [] "")
   = main_body 0 150 (initial_world [] [] "")
   <-> 100 + 50 = 0 + 150).
Proof.
  assert (Ha : is_uint8 100) by uint8_range.
  assert (Hb : is_uint8 50) by uint8_range.
  assert (Ha' : is_uint8 0) by uint8_range.
  assert (Hb' : is_uint8 150) by uint8_range.
  assert (E : overflow_check 100 50 = Some false) by reflexivity.
  assert (E' : overflow_check 0 150 = Some false) by reflexivity.
  split; [exact Ha | split; [exact Hb | split; [exact Ha' | split;
    [exact Hb' | split; [exact E | split; [exact E' |]]]]]].
  exact (sum_output_determines_sum
           100 50 0 150 (initial_world [] [] "") Ha Hb Ha' Hb' E E').
Defined.
